(** * Moxa ioLogik API monitor: deployment descriptor and acquisition pipeline

    Two parts.

    - The process-manager descriptor [ecosystem.config.js], embedded as the
      record it literally is.
    - The acquisition pipeline (DeviceClient, Sampler, Persister,
      RingBuffer).  The acquisition script [app.py] is referenced by the
      descriptor but its text is not among the sources, so the pipeline is
      modelled from the design document, component by component. *)

From stdpp Require Import gmap strings list sorting.
From Stdlib Require Import ZArith Ascii.

Local Open Scope string_scope.

(* ===================================================================== *)
(** ** Deployment descriptor: [ecosystem.config.js] *)
(* ===================================================================== *)

(** One entry of the [apps] array.  [env] is a JS object used as a map from
    variable names to string values. *)
Record App := {
  name : string;
  script : string;
  interpreter : string;
  watch : bool;
  env : gmap string string
}.

Record Ecosystem := { apps : list App }.

(** [module.exports] of [ecosystem.config.js], field by field. *)
Definition module_exports : Ecosystem := {|
  apps := [
    {| name := "moxa-api";
       script := "app.py";
       interpreter := "~/miniconda3/envs/moxa-api/bin/python";
       watch := false;
       env := {[ "PYTHONUNBUFFERED" := "1" ]}
    |}
  ]
|}.

(** Last component of a slash-separated path: the executable an
    [interpreter] path designates. *)
Fixpoint basename_from (acc s : string) : string :=
  match s with
  | EmptyString => acc
  | String c rest =>
      if Ascii.eqb c "/"%char
      then basename_from EmptyString rest
      else basename_from (acc ++ String c EmptyString) rest
  end.

Definition basename (s : string) : string := basename_from EmptyString s.

(** The meaning the process manager (pm2) gives to [watch]; pm2 is not
    part of the repository, this is its documented behaviour.  On a change
    of a file in the application directory the managed process is restarted
    when the entry's [watch] option is on, and left alone otherwise.  The
    counter is the number of automatic restarts so far. *)
Definition on_file_change (a : App) (restarts : nat) : nat :=
  if watch a then S restarts else restarts.

Definition restarts_after (a : App) (changed : list string) : nat :=
  foldl (fun n _ => on_file_change a n) 0 changed.

(** How the Python interpreter reads a flag variable of its environment
    such as [PYTHONUNBUFFERED]; the interpreter is not part of the
    repository, this is its behaviour.  White space is what C's [isspace]
    accepts. *)
Definition is_space (c : ascii) : bool :=
  let n := nat_of_ascii c in
  Nat.eqb n 32 || (Nat.leb 9 n && Nat.leb n 13).

Fixpoint skip_spaces (s : string) : string :=
  match s with
  | EmptyString => s
  | String c rest => if is_space c then skip_spaces rest else s
  end.

Definition digit_value (c : ascii) : option Z :=
  let n := nat_of_ascii c in
  if Nat.leb 48 n && Nat.leb n 57 then Some (Z.of_nat (n - 48)) else None.

Fixpoint decimal_from (acc : Z) (s : string) : option Z :=
  match s with
  | EmptyString => Some acc
  | String c rest =>
      match digit_value c with
      | Some d => decimal_from (10 * acc + d)%Z rest
      | None => None
      end
  end.

(** The text as a decimal integer, the way [strtol] in base 10 reads it
    when the whole text must be consumed: leading white space, an optional
    sign, at least one digit and nothing after the digits, the value
    within the range of a C [int]. *)
Definition str_to_int (s : string) : option Z :=
  let body := skip_spaces s in
  let signed :=
    match body with
    | String c rest =>
        if Ascii.eqb c "-"%char then (true, rest)
        else if Ascii.eqb c "+"%char then (false, rest)
        else (false, body)
    | EmptyString => (false, body)
    end in
  match signed.2 with
  | EmptyString => None
  | String _ _ =>
      match decimal_from 0 signed.2 with
      | Some n =>
          let v := if signed.1 then (- n)%Z else n in
          if Z.leb (-2147483648) v && Z.leb v 2147483647
          then Some v else None
      | None => None
      end
  end.

(** The value of a flag variable: 0 when the variable is unset or empty;
    otherwise the integer the text denotes, where text that is no integer
    and a negative integer count as 1. *)
Definition env_flag (e : gmap string string) (var : string) : Z :=
  match e !! var with
  | None => 0
  | Some v =>
      if String.eqb v EmptyString then 0
      else match str_to_int v with
           | Some n => if Z.ltb n 0 then 1 else n
           | None => 1
           end
  end.

(** The meaning the Python interpreter gives to [PYTHONUNBUFFERED]: the
    standard streams are unbuffered when the flag is positive.  The value
    ["1"] turns buffering off; the value ["0"], like no value, leaves it
    on. *)
Definition stdout_unbuffered (e : gmap string string) : bool :=
  Z.ltb 0 (env_flag e "PYTHONUNBUFFERED").

(** *** The shell commands of [README.md] *)

(** The command of the install step ([README.md], line 9). *)
Definition readme_conda_create : string := "conda create -n moxa-api".

(** The command of the daemonize step ([README.md], line 19). *)
Definition readme_pm2_start : string :=
  "pm2 start app.py --name moxa-api --interpreter ~/miniconda3/envs/moxa-api/bin/python".

(** The pieces of a text between the occurrences of a separator, in
    order: the words of a command line for a space, the components of a
    path for a slash. *)
Fixpoint split_from (sep : ascii) (acc s : string) : list string :=
  match s with
  | EmptyString => [acc]
  | String c rest =>
      if Ascii.eqb c sep
      then acc :: split_from sep EmptyString rest
      else split_from sep (acc ++ String c EmptyString) rest
  end.

Definition split_on (sep : ascii) (s : string) : list string :=
  split_from sep EmptyString s.

(** The pieces put back together with the separator between them. *)
Fixpoint join (sep : ascii) (pieces : list string) : string :=
  match pieces with
  | [] => EmptyString
  | x :: rest =>
      match rest with
      | [] => x
      | _ :: _ => x ++ String sep (join sep rest)
      end
  end.

Local Close Scope string_scope.

(* ===================================================================== *)
(** ** Acquisition pipeline *)
(* ===================================================================== *)

(** The voltage is a floating-point number that the pipeline stores and
    forwards but never computes with; the model is parametric in its
    representation [V]. *)

Section PipelineModel.

Variable V : Type.

(** *** Data model *)

(** Modelled from the spec: the [status] tag of a Reading ([app.py] is not
    among the sources).  [ok] for a value the device delivered; [error] for
    a channel the device omitted or malformed (the document's
    "stale/error"). *)
Inductive Status := ok | error.

(** Modelled from the spec: the Reading record of section 3, one sample of
    one channel at one instant.  [value] is absent exactly when the device
    gave no usable value for the channel. *)
Record Reading := mkReading {
  timestamp : Z;
  channel_id : string;
  value : option V;
  status : Status
}.

(** Modelled from the spec: DeviceConfig (section 3) together with the
    ring-buffer capacity of the configuration surface (section 6) and the
    three backoff parameters that section 9 leaves to configuration.
    Durations are in clock units. *)
Record DeviceConfig := {
  host : string;
  port : nat;
  path : string;
  channels : list string;
  poll_interval : nat;
  csv_path : string;
  log_path : string;
  ring_capacity : nat;
  backoff_initial : nat;
  backoff_multiplier : nat;
  backoff_max : nat
}.

(** Modelled from the spec: the error kinds of section 7. *)
Inductive ErrorKind :=
  | NetworkUnavailable
  | Timeout
  | MalformedResponse
  | PersistenceWriteFailure
  | ConfigurationError.

Inductive Result (T E : Type) :=
  | Ok (t : T)
  | Err (e : E).

(** *** DeviceClient *)

(** Modelled from the spec: what the network hands back for one request of
    the DeviceClient (sections 4.1 and 7).  [Answered None] is a body
    that does not parse as the expected schema; [Answered (Some m)] is a
    valid envelope, where [m !! c = None] means channel [c] is missing and
    [m !! c = Some None] means its value is malformed. *)
Inductive Response :=
  | Unreachable
  | NoAnswerInTime
  | Answered (payload : option (gmap string (option V))).

Definition channel_value (m : gmap string (option V)) (c : string)
  : string * option V :=
  (c, match m !! c with Some (Some v) => Some v | _ => None end).

(** Modelled from the spec: [DeviceClient.fetch] (section 4.1).  One value
    per configured channel, in configured order; a missing or malformed
    channel is reported individually; the three failure conditions surface
    as distinct error kinds with no values at all. *)
Definition fetch (cfg : DeviceConfig) (resp : Response)
  : Result (list (string * option V)) ErrorKind :=
  match resp with
  | Unreachable => Err _ _ NetworkUnavailable
  | NoAnswerInTime => Err _ _ Timeout
  | Answered None => Err _ _ MalformedResponse
  | Answered (Some m) => Ok _ _ (channel_value m <$> channels cfg)
  end.

(** *** Persister *)

(** Modelled from the spec: a line of the CSV file (section 6), the header
    or one row per Reading with the columns timestamp, channel_id, value,
    status. *)
Inductive CsvLine :=
  | CsvHeader
  | CsvRow (r : Reading).

(** Modelled from the spec: a line of the structured log file (sections
    4.3 and 6), one line per Reading or per failed cycle; the line of a
    failed cycle carries the cycle's time and the kind of the failure. *)
Inductive LogLine :=
  | LogEntry (r : Reading)
  | LogFailure (ts : Z) (e : ErrorKind).

(** Modelled from the spec: the two output files as they lie on disk
    between runs (section 3, "lifecycle spans process restarts"); [None] is
    a file that does not exist yet. *)
Record Disk := {
  csv_file : option (list CsvLine);
  log_file : option (list LogLine)
}.

(** Modelled from the spec: the Persister (section 4.3) owns the two open
    files; the lists are their contents. *)
Record Persister := {
  csv : list CsvLine;
  log : list LogLine
}.

(** Modelled from the spec: opening the output files at startup (sections
    3 and 6).  An existing file is opened for appending, its content kept;
    the CSV header is written once, when the file is created. *)
Definition open_persister (d : Disk) : Persister :=
  {| csv := match csv_file d with
            | Some rows => rows
            | None => [CsvHeader]
            end;
     log := match log_file d with
            | Some lines => lines
            | None => []
            end |}.

(** Modelled from the spec: closing the files at shutdown; what was
    appended stays on disk. *)
Definition close_persister (p : Persister) : Disk :=
  {| csv_file := Some (csv p); log_file := Some (log p) |}.

(** Modelled from the spec: whether the file system accepted the write of
    one batch to one file (section 7, PersistenceWriteFailure).  A refused
    write leaves the file as it was. *)
Inductive WriteOutcome := Written | WriteFailed.

Definition write_csv (o : WriteOutcome) (batch : list Reading)
    (rows : list CsvLine) : list CsvLine :=
  match o with
  | Written => rows ++ (CsvRow <$> batch)
  | WriteFailed => rows
  end.

Definition write_log (o : WriteOutcome) (batch : list Reading)
    (lines : list LogLine) : list LogLine :=
  match o with
  | Written => lines ++ (LogEntry <$> batch)
  | WriteFailed => lines
  end.

(** Modelled from the spec: the line a failed cycle gets in the structured
    log (section 6), appended after everything already there when the file
    system accepts the write.  The CSV file holds Readings only and is not
    touched. *)
Definition write_failure (o : WriteOutcome) (ts : Z) (e : ErrorKind)
    (lines : list LogLine) : list LogLine :=
  match o with
  | Written => lines ++ [LogFailure ts e]
  | WriteFailed => lines
  end.

Definition log_failure (ts : Z) (e : ErrorKind) (o : WriteOutcome)
    (p : Persister) : Persister :=
  {| csv := csv p; log := write_failure o ts e (log p) |}.

(** Modelled from the spec: [Persister.append] (section 4.3).  Each Reading
    becomes one CSV row and one log line, after everything already there;
    both writes are attempted; a failure on either path is reported and the
    batch is not queued again (section 7). *)
Definition append (batch : list Reading) (io : WriteOutcome * WriteOutcome)
    (p : Persister) : Persister * Result unit ErrorKind :=
  ({| csv := write_csv io.1 batch (csv p);
      log := write_log io.2 batch (log p) |},
   match io with
   | (Written, Written) => Ok _ _ ()
   | _ => Err _ _ PersistenceWriteFailure
   end).

(** The Readings a file holds, in file order. *)
Definition csv_readings (rows : list CsvLine) : list Reading :=
  omap (λ l, match l with CsvRow r => Some r | CsvHeader => None end) rows.

Definition log_readings (lines : list LogLine) : list Reading :=
  omap (λ l, match l with LogEntry r => Some r | LogFailure _ _ => None end)
       lines.

Definition is_failure_line (l : LogLine) : bool :=
  match l with LogFailure _ _ => true | LogEntry _ => false end.

(** The time a line of the log is stamped with. *)
Definition log_time (l : LogLine) : Z :=
  match l with LogEntry r => timestamp r | LogFailure ts _ => ts end.

(** The two output files, and for each the verdict that concerns it and
    the Readings it holds. *)
Inductive File := CsvFile | LogFile.

Definition outcome_for (f : File) (io : WriteOutcome * WriteOutcome)
  : WriteOutcome :=
  match f with CsvFile => io.1 | LogFile => io.2 end.

Definition file_readings (f : File) (p : Persister) : list Reading :=
  match f with
  | CsvFile => csv_readings (csv p)
  | LogFile => log_readings (log p)
  end.

(** The timestamps of the lines of a file, in file order (the CSV header
    has none). *)
Definition file_stamps (f : File) (p : Persister) : list Z :=
  match f with
  | CsvFile => timestamp <$> csv_readings (csv p)
  | LogFile => log_time <$> log p
  end.

(** The timestamps file [f] of [p'] has after those of file [f] of [p]. *)
Definition appended_stamps (f : File) (p p' : Persister) : list Z :=
  drop (length (file_stamps f p)) (file_stamps f p').

(** File [f] of [p'] begins with the whole of file [f] of [p]: nothing was
    truncated, rewritten or removed. *)
Definition file_kept (f : File) (p p' : Persister) : Prop :=
  match f with
  | CsvFile => csv p `prefix_of` csv p'
  | LogFile => log p `prefix_of` log p'
  end.

(** File [f] of [p'] is file [f] of [p] followed by lines that hold the
    Readings [new], in order: for the CSV file one row per Reading and
    nothing else, for the log one entry per Reading, possibly with lines of
    failed cycles between them. *)
Definition file_extends (f : File) (p p' : Persister) (new : list Reading)
  : Prop :=
  match f with
  | CsvFile => csv p' = csv p ++ (CsvRow <$> new)
  | LogFile => ∃ lines, log p' = log p ++ lines ∧ log_readings lines = new
  end.

(** *** RingBuffer *)

(** Modelled from the spec: the RingBuffer (sections 3 and 4.4), a
    capacity and, per channel, the entries held, oldest first. *)
Record RingBuffer := {
  capacity : nat;
  entries : gmap string (list Reading)
}.

(** Modelled from the spec: the RingBuffer as created at startup, empty
    (section 3). *)
Definition new_ring (cap : nat) : RingBuffer :=
  {| capacity := cap; entries := ∅ |}.

(** Modelled from the spec: [RingBuffer.snapshot] (section 4.4), a copy of
    the channel's entries, most recent last. *)
Definition snapshot (c : string) (rb : RingBuffer) : list Reading :=
  default [] (entries rb !! c).

(** Modelled from the spec: the insertion of one Reading by
    [RingBuffer.push] (section 4.4): when the channel is at capacity the
    oldest entry is evicted, then the new one is inserted. *)
Definition push_one (rb : RingBuffer) (r : Reading) : RingBuffer :=
  let q := snapshot (channel_id r) rb in
  let kept := if decide (capacity rb ≤ length q) then drop 1 q else q in
  {| capacity := capacity rb;
     entries := <[channel_id r := kept ++ [r]]> (entries rb) |}.

(** Modelled from the spec: [RingBuffer.push] of a batch. *)
Definition push (batch : list Reading) (rb : RingBuffer) : RingBuffer :=
  foldl push_one rb batch.

(** The pushes of a whole sequence of batches, one batch after the other. *)
Definition push_all (bs : list (list Reading)) (rb : RingBuffer)
  : RingBuffer :=
  foldl (λ b batch, push batch b) rb bs.

(** The Readings of one channel within a history of pushed Readings. *)
Definition on_channel (c : string) (rs : list Reading) : list Reading :=
  filter (λ r, channel_id r = c) rs.

(** The [n] last elements of a history. *)
Definition most_recent (n : nat) (rs : list Reading) : list Reading :=
  drop (length rs - n) rs.

(** *** Sampler *)

(** Modelled from the spec: the Reading the Sampler constructs for one
    fetched channel, stamped with the tick's time (section 4.2). *)
Definition mk_reading (ts : Z) (cv : string * option V) : Reading :=
  {| timestamp := ts;
     channel_id := cv.1;
     value := cv.2;
     status := match cv.2 with Some _ => ok | None => error end |}.

(** Modelled from the spec: the Sampler's state (sections 4.2 and 9).  The
    acquisition loop's state: the two injected consumers, the number
    of fetch failures since the last success, the time of the next tick,
    and the failures reported so far on the external diagnostic channel
    (fetch failures and refused writes, each with the time of its
    cycle). *)
Record Sampler := {
  ring : RingBuffer;
  persister : Persister;
  failures : nat;
  clock : Z;
  reported : list (Z * ErrorKind)
}.

(** Modelled from the spec: what the environment contributes to one poll
    cycle of the Sampler: the device's
    response, the file system's verdict on the CSV and the log write, and
    the time the cycle itself takes. *)
Record Tick := {
  response : Response;
  io : WriteOutcome * WriteOutcome;
  busy : nat
}.

(** Modelled from the spec: what one poll cycle of the Sampler produces,
    the batch, if any, and the delay until the next tick. *)
Record Outcome := {
  emitted : option (list Reading);
  delay : nat
}.

(** Whether the file system accepts a tick's write to the log. *)
Definition log_accepts (t : Tick) : bool :=
  match (io t).2 with Written => true | WriteFailed => false end.

(** Whether a tick's fetch succeeds under a configuration. *)
Definition fetch_ok (cfg : DeviceConfig) (t : Tick) : bool :=
  match fetch cfg (response t) with
  | Ok _ _ _ => true
  | Err _ _ _ => false
  end.

Definition fetch_fails (cfg : DeviceConfig) (t : Tick) : Prop :=
  fetch_ok cfg t = false.

Definition fetch_succeeds (cfg : DeviceConfig) (t : Tick) : Prop :=
  fetch_ok cfg t = true.

(** Modelled from the spec: bounded exponential backoff (section 4.2).
    After [k] earlier consecutive failures the delay is the initial delay
    multiplied [k] times, capped at the maximum inter-attempt delay. *)
Definition backoff_delay (cfg : DeviceConfig) (k : nat) : nat :=
  Nat.min (backoff_initial cfg * backoff_multiplier cfg ^ k)
          (backoff_max cfg).

(** Modelled from the spec: one poll cycle of the Sampler (section 4.2).
    On success the batch is built with the tick's timestamp and the same
    batch goes to the Persister and to the RingBuffer; a refused write is
    reported and the batch is not queued again.  On failure no Reading is
    written, the failed cycle gets its line in the structured log (section
    6), the failure is reported, and the next tick waits for the backoff
    delay.  The next tick is scheduled relative to completion. *)
Definition poll_cycle (cfg : DeviceConfig) (st : Sampler) (t : Tick)
  : Sampler * Outcome :=
  match fetch cfg (response t) with
  | Err _ _ e =>
      let d := backoff_delay cfg (failures st) in
      ({| ring := ring st;
          persister := log_failure (clock st) e (io t).2 (persister st);
          failures := S (failures st);
          clock := (clock st + Z.of_nat (busy t) + Z.of_nat d)%Z;
          reported := reported st ++ [(clock st, e)] |},
       {| emitted := None; delay := d |})
  | Ok _ _ vals =>
      let batch := mk_reading (clock st) <$> vals in
      let written := append batch (io t) (persister st) in
      ({| ring := push batch (ring st);
          persister := written.1;
          failures := 0;
          clock := (clock st + Z.of_nat (busy t)
                    + Z.of_nat (poll_interval cfg))%Z;
          reported := reported st ++
                      match written.2 with
                      | Err _ _ e => [(clock st, e)]
                      | Ok _ _ _ => []
                      end |},
       {| emitted := Some batch; delay := poll_interval cfg |})
  end.

(** Modelled from the spec: the Sampler's acquisition loop (section 4.2)
    over a sequence of ticks; the final state and the outcome of every
    cycle, in order. *)
Fixpoint run (cfg : DeviceConfig) (st : Sampler) (ticks : list Tick)
  : Sampler * list Outcome :=
  match ticks with
  | [] => (st, [])
  | t :: rest =>
      let step := poll_cycle cfg st t in
      let tail := run cfg step.1 rest in
      (tail.1, step.2 :: tail.2)
  end.

(** Modelled from the spec: process start.  The buffer is created empty,
    the files are opened for appending, [now] is the wall-clock time of the
    first tick. *)
Definition start (cfg : DeviceConfig) (d : Disk) (now : Z) : Sampler :=
  {| ring := new_ring (ring_capacity cfg);
     persister := open_persister d;
     failures := 0;
     clock := now;
     reported := [] |}.

(** Modelled from the spec: clean shutdown of the Sampler; the files stay
    on disk, the buffer is gone (section 4.4, no persistence). *)
Definition shutdown (st : Sampler) : Disk := close_persister (persister st).

(** The batches a run emitted, in order. *)
Definition batches (outs : list Outcome) : list (list Reading) :=
  omap emitted outs.

(** The Readings of the batches a run handed to [append] whose write to
    file [f] the file system accepted, in order. *)
Fixpoint accepted (f : File) (ticks : list Tick) (outs : list Outcome)
  : list Reading :=
  match ticks, outs with
  | t :: ticks', o :: outs' =>
      match emitted o, outcome_for f (io t) with
      | Some batch, Written => batch ++ accepted f ticks' outs'
      | _, _ => accepted f ticks' outs'
      end
  | _, _ => []
  end.

End PipelineModel.

Arguments mkReading {V}.
Arguments timestamp {V}.
Arguments channel_id {V}.
Arguments value {V}.
Arguments status {V}.
Arguments Ok {T E}.
Arguments Err {T E}.
Arguments Unreachable {V}.
Arguments NoAnswerInTime {V}.
Arguments Answered {V}.
Arguments channel_value {V}.
Arguments fetch {V}.
Arguments CsvHeader {V}.
Arguments CsvRow {V}.
Arguments LogEntry {V}.
Arguments LogFailure {V}.
Arguments write_failure {V}.
Arguments log_failure {V}.
Arguments is_failure_line {V}.
Arguments log_time {V}.
Arguments file_stamps {V}.
Arguments appended_stamps {V}.
Arguments file_kept {V}.
Arguments log_accepts {V}.
Arguments csv_file {V}.
Arguments log_file {V}.
Arguments csv {V}.
Arguments log {V}.
Arguments open_persister {V}.
Arguments close_persister {V}.
Arguments write_csv {V}.
Arguments write_log {V}.
Arguments append {V}.
Arguments csv_readings {V}.
Arguments file_readings {V}.
Arguments file_extends {V}.
Arguments log_readings {V}.
Arguments capacity {V}.
Arguments entries {V}.
Arguments new_ring {V}.
Arguments snapshot {V}.
Arguments push_one {V}.
Arguments push {V}.
Arguments push_all {V}.
Arguments on_channel {V}.
Arguments most_recent {V}.
Arguments mk_reading {V}.
Arguments ring {V}.
Arguments persister {V}.
Arguments failures {V}.
Arguments clock {V}.
Arguments reported {V}.
Arguments response {V}.
Arguments io {V}.
Arguments busy {V}.
Arguments emitted {V}.
Arguments delay {V}.
Arguments fetch_ok {V}.
Arguments fetch_fails {V}.
Arguments fetch_succeeds {V}.
Arguments poll_cycle {V}.
Arguments run {V}.
Arguments start {V}.
Arguments shutdown {V}.
Arguments batches {V}.
Arguments accepted {V}.

(** *** A concrete deployment, for running the model

    Two channels, voltages kept as the decimal text the device sends. *)

Local Open Scope string_scope.

Definition sample_config : DeviceConfig := {|
  host := "iologik.local";
  port := 80;
  path := "/api/slot/0/io/ai";
  channels := ["ch0"; "ch1"];
  poll_interval := 1000;
  csv_path := "data.csv";
  log_path := "data.log";
  ring_capacity := 2;
  backoff_initial := 500;
  backoff_multiplier := 2;
  backoff_max := 3000
|}.

Definition tick_ok : Tick string := {|
  response := Answered (Some {[ "ch0" := Some "3.3"; "ch1" := Some "1.2" ]});
  io := (Written, Written);
  busy := 20
|}.

Definition tick_timeout : Tick string := {|
  response := NoAnswerInTime;
  io := (Written, Written);
  busy := 200
|}.

Definition tick_csv_full : Tick string := {|
  response := Answered (Some {[ "ch0" := Some "3.3"; "ch1" := Some "1.2" ]});
  io := (WriteFailed, Written);
  busy := 20
|}.

Definition fresh_disk : Disk string :=
  {| csv_file := None; log_file := None |}.

(** The same deployment with a backoff multiplier of 0. *)
Definition config_multiplier_zero : DeviceConfig := {|
  host := "iologik.local";
  port := 80;
  path := "/api/slot/0/io/ai";
  channels := ["ch0"; "ch1"];
  poll_interval := 1000;
  csv_path := "data.csv";
  log_path := "data.log";
  ring_capacity := 2;
  backoff_initial := 500;
  backoff_multiplier := 0;
  backoff_max := 3000
|}.

(** The sample deployment after one good cycle: one Reading per channel
    in the buffer and in both files. *)
Definition warm_state : Sampler string :=
  (run sample_config (start sample_config fresh_disk 0) [tick_ok]).1.

Definition sample_reading (ts : Z) (v : string) : Reading string :=
  {| timestamp := ts; channel_id := "ch0"; value := Some v; status := ok |}.

Local Close Scope string_scope.

(* ===================================================================== *)
(** ** Properties of the acquisition pipeline *)
(* ===================================================================== *)

Section PipelineProofs.

Context {V : Type}.

Implicit Types (r : Reading V) (rs batch : list (Reading V)).
Implicit Types (bs : list (list (Reading V))).
Implicit Types (rb : RingBuffer V) (c : string) (cap : nat).

(** *** RingBuffer *)

Lemma snapshot_new_ring cap c : snapshot c (new_ring (V:=V) cap) = [].
Proof. unfold snapshot, new_ring. cbn. by rewrite lookup_empty. Qed.

Lemma capacity_push_one rb r : capacity (push_one rb r) = capacity rb.
Proof. reflexivity. Qed.

Lemma capacity_push batch rb : capacity (push batch rb) = capacity rb.
Proof.
  unfold push. revert rb.
  induction batch as [|r batch IH]; intros rb; [done|].
  cbn. by rewrite IH.
Qed.

Lemma snapshot_push_one_same rb r :
  snapshot (channel_id r) (push_one rb r) =
  (if decide (capacity rb ≤ length (snapshot (channel_id r) rb))
   then drop 1 (snapshot (channel_id r) rb)
   else snapshot (channel_id r) rb) ++ [r].
Proof.
  unfold push_one at 1. unfold snapshot at 1. cbn.
  by rewrite lookup_insert_eq.
Qed.

Lemma snapshot_push_one_other rb r c :
  c ≠ channel_id r → snapshot c (push_one rb r) = snapshot c rb.
Proof.
  intros Hne. unfold push_one, snapshot at 1. cbn.
  rewrite lookup_insert_ne; [done|congruence].
Qed.

Lemma length_most_recent cap rs :
  length (most_recent cap rs) = length rs `min` cap.
Proof. unfold most_recent. rewrite length_drop. lia. Qed.

(** Appending to a history and keeping the [cap] last elements is the
    evict-then-insert step of the buffer. *)
Lemma most_recent_snoc cap rs r :
  0 < cap →
  most_recent cap (rs ++ [r]) =
  (if decide (cap ≤ length (most_recent cap rs))
   then drop 1 (most_recent cap rs)
   else most_recent cap rs) ++ [r].
Proof.
  intros Hcap. rewrite length_most_recent. unfold most_recent.
  rewrite length_app. cbn [length].
  case_decide as Hfull.
  - rewrite drop_drop, drop_app.
    replace (length rs + 1 - cap) with (length rs - cap + 1) by lia.
    replace (length rs - cap + 1 - length rs) with 0 by lia.
    done.
  - rewrite drop_app.
    replace (length rs + 1 - cap) with 0 by lia.
    replace (length rs - cap) with 0 by lia.
    done.
Qed.

Lemma on_channel_snoc c rs r :
  on_channel c (rs ++ [r]) =
  on_channel c rs ++ (if decide (channel_id r = c) then [r] else []).
Proof.
  unfold on_channel. by rewrite filter_app.
Qed.

(** The buffer holds, per channel, the [capacity] most recent Readings of
    everything pushed since it was created. *)
Lemma snapshot_foldl_push_one cap rs c :
  0 < cap →
  snapshot c (foldl push_one (new_ring cap) rs) =
  most_recent cap (on_channel c rs).
Proof.
  intros Hcap.
  assert (Hc : ∀ l, capacity (foldl push_one (new_ring (V:=V) cap) l) = cap).
  { intros l. induction l as [|x l IH] using rev_ind; [done|].
    by rewrite foldl_app. }
  induction rs as [|r rs IH] using rev_ind.
  - cbn [foldl]. by rewrite snapshot_new_ring.
  - rewrite foldl_app, on_channel_snoc. cbn [foldl].
    destruct (decide (channel_id r = c)) as [<-|Hne].
    + rewrite snapshot_push_one_same, Hc, IH.
      by rewrite most_recent_snoc.
    + rewrite snapshot_push_one_other by congruence.
      by rewrite IH, app_nil_r.
Qed.

Lemma push_all_foldl_push_one bs rb :
  push_all bs rb = foldl push_one rb (concat bs).
Proof.
  unfold push_all, push. revert rb.
  induction bs as [|b bs IH]; intros rb; [done|].
  cbn. by rewrite IH, foldl_app.
Qed.

Lemma snapshot_push_all cap bs c :
  0 < cap →
  snapshot c (push_all bs (new_ring cap)) =
  most_recent cap (on_channel c (concat bs)).
Proof.
  intros Hcap. rewrite push_all_foldl_push_one.
  by apply snapshot_foldl_push_one.
Qed.


(** *** Persister *)

Lemma csv_readings_rows rs : csv_readings (CsvRow <$> rs) = rs.
Proof.
  unfold csv_readings. induction rs as [|r rs IH]; [done|].
  cbn. by rewrite IH.
Qed.

Lemma log_readings_entries rs : log_readings (LogEntry <$> rs) = rs.
Proof.
  unfold log_readings. induction rs as [|r rs IH]; [done|].
  cbn. by rewrite IH.
Qed.

Lemma reopen_keeps_files (p : Persister V) :
  open_persister (close_persister p) = p.
Proof. by destruct p. Qed.

(** [append] adds the batch to a file that accepts the write and leaves
    the other alone; it never touches what is already there. *)
Lemma append_extends f batch wio (p : Persister V) :
  file_extends f p (append batch wio p).1
    match outcome_for f wio with Written => batch | WriteFailed => [] end.
Proof.
  destruct f; cbn.
  - unfold write_csv. destruct wio.1; [done|by rewrite app_nil_r].
  - unfold write_log. destruct wio.2.
    + eexists. split; [done|]. apply log_readings_entries.
    + exists []. by rewrite app_nil_r.
Qed.

(** The line of a failed cycle adds no Reading to either file. *)
Lemma log_failure_extends f ts e o (p : Persister V) :
  file_extends f p (log_failure ts e o p) [].
Proof.
  destruct f; cbn; [by rewrite app_nil_r|].
  unfold write_failure. destruct o.
  - by eexists [_].
  - exists []. by rewrite app_nil_r.
Qed.

Lemma file_extends_refl f (p : Persister V) : file_extends f p p [].
Proof.
  destruct f; cbn; [by rewrite app_nil_r|].
  exists []. by rewrite app_nil_r.
Qed.

Lemma file_extends_trans f (p1 p2 p3 : Persister V) rs1 rs2 :
  file_extends f p1 p2 rs1 → file_extends f p2 p3 rs2 →
  file_extends f p1 p3 (rs1 ++ rs2).
Proof.
  destruct f; cbn.
  - intros -> ->. by rewrite fmap_app, app_assoc.
  - intros (l1 & -> & <-) (l2 & -> & <-). exists (l1 ++ l2).
    split; [by rewrite app_assoc|]. unfold log_readings. by rewrite omap_app.
Qed.

Lemma file_extends_readings f (p p' : Persister V) rs :
  file_extends f p p' rs → file_readings f p' = file_readings f p ++ rs.
Proof.
  destruct f; cbn.
  - intros ->. unfold csv_readings. rewrite omap_app. f_equal.
    apply csv_readings_rows.
  - intros (lines & -> & <-). unfold log_readings. by rewrite omap_app.
Qed.

Lemma file_extends_kept f (p p' : Persister V) rs :
  file_extends f p p' rs → file_kept f p p'.
Proof.
  destruct f; cbn.
  - intros ->. by eexists.
  - intros (lines & -> & _). by eexists.
Qed.

(** *** Sampler: one cycle *)

Implicit Types (cfg : DeviceConfig) (st : Sampler V) (t : Tick V).
Implicit Types (ticks : list (Tick V)).

Lemma poll_cycle_failure cfg st t :
  fetch_fails cfg t →
  ∃ e,
    let next := poll_cycle cfg st t in
    ring next.1 = ring st ∧
    persister next.1 = log_failure (clock st) e (io t).2 (persister st) ∧
    failures next.1 = S (failures st) ∧
    (clock st ≤ clock next.1)%Z ∧
    reported next.1 = reported st ++ [(clock st, e)] ∧
    next.2 = {| emitted := None; delay := backoff_delay cfg (failures st) |}.
Proof.
  unfold fetch_fails, fetch_ok, poll_cycle.
  destruct (fetch cfg (response t)) as [vals|e]; [discriminate|].
  intros _. exists e. cbn. repeat split. lia.
Qed.

Lemma poll_cycle_success cfg st t :
  fetch_succeeds cfg t →
  ∃ batch,
    let next := poll_cycle cfg st t in
    channel_id <$> batch = channels cfg ∧
    Forall (λ r, timestamp r = clock st) batch ∧
    ring next.1 = push batch (ring st) ∧
    persister next.1 = (append batch (io t) (persister st)).1 ∧
    failures next.1 = 0 ∧
    (clock st ≤ clock next.1)%Z ∧
    next.2 = {| emitted := Some batch; delay := poll_interval cfg |}.
Proof.
  unfold fetch_succeeds, fetch_ok, poll_cycle.
  destruct (fetch cfg (response t)) as [vals|e] eqn:Hvals; [|discriminate].
  intros _. eexists. cbn [fst snd ring persister failures clock].
  split; [|split]; [| |repeat split; lia].
  - unfold fetch in Hvals.
    destruct (response t) as [| |[m|]]; try discriminate.
    injection Hvals as <-.
    induction (channels cfg) as [|c cs IH]; [done|].
    cbn. by rewrite IH.
  - apply Forall_fmap, Forall_true. done.
Qed.

Lemma fetch_fails_or_succeeds cfg t :
  fetch_fails cfg t ∨ fetch_succeeds cfg t.
Proof.
  unfold fetch_fails, fetch_succeeds.
  destruct (fetch_ok cfg t); auto.
Qed.

Lemma poll_cycle_clock cfg st t :
  (clock st ≤ clock (poll_cycle cfg st t).1)%Z.
Proof.
  destruct (fetch_fails_or_succeeds cfg t) as [Hbad|Hok].
  - by destruct (poll_cycle_failure cfg st t Hbad) as (e & _ & _ & _ & H & _).
  - by destruct (poll_cycle_success cfg st t Hok)
      as (batch & _ & _ & _ & _ & _ & H & _).
Qed.

(** Nothing is ever taken off the diagnostic channel. *)
Lemma poll_cycle_reported cfg st t :
  reported st `prefix_of` reported (poll_cycle cfg st t).1.
Proof.
  unfold poll_cycle. destruct (fetch cfg (response t)); cbn; by eexists.
Qed.

(** A cycle that acquires a batch and has a write refused says so. *)
Lemma refused_write_reported cfg st t f :
  fetch_succeeds cfg t →
  outcome_for f (io t) = WriteFailed →
  (clock st, PersistenceWriteFailure) ∈ reported (poll_cycle cfg st t).1.
Proof.
  unfold fetch_succeeds, fetch_ok, poll_cycle.
  destruct (fetch cfg (response t)) as [vals|e]; [|discriminate].
  intros _ Hrefused. cbn [fst snd reported]. apply elem_of_app. right.
  destruct (io t) as [[] []], f; cbn in *; try discriminate;
    apply list_elem_of_singleton; reflexivity.
Qed.

(** *** Sampler: runs *)

Lemma run_app cfg st ticks1 ticks2 :
  run cfg st (ticks1 ++ ticks2) =
  ((run cfg (run cfg st ticks1).1 ticks2).1,
   (run cfg st ticks1).2 ++ (run cfg (run cfg st ticks1).1 ticks2).2).
Proof.
  revert st. induction ticks1 as [|t ticks1 IH]; intros st.
  - cbn. by destruct (run cfg st ticks2).
  - cbn [run app fst snd]. rewrite IH. done.
Qed.

Lemma run_length cfg st ticks : length (run cfg st ticks).2 = length ticks.
Proof.
  revert st. induction ticks as [|t ticks IH]; intros st; [done|].
  cbn. by rewrite IH.
Qed.

Lemma run_reported cfg st ticks :
  reported st `prefix_of` reported (run cfg st ticks).1.
Proof.
  revert st. induction ticks as [|t ticks IH]; intros st; [done|].
  cbn [run fst]. etrans; [apply poll_cycle_reported|apply IH].
Qed.


(** C2: a poll cycle whose fetch succeeds produces a batch with exactly
    one Reading per configured channel, in the configured order. *)
Theorem successful_cycle_one_reading_per_channel cfg st t :
  fetch_succeeds cfg t →
  ∃ batch,
    emitted (poll_cycle cfg st t).2 = Some batch ∧
    channel_id <$> batch = channels cfg ∧
    length batch = length (channels cfg).
Proof.
  intros Hok.
  destruct (poll_cycle_success cfg st t Hok) as (batch & Hch & _ & _ & _ & _ & _ & Ho).
  exists batch. split; [by rewrite Ho|]. split; [done|].
  by rewrite <- Hch, length_fmap.
Qed.

(** *** Backoff *)

Lemma backoff_delay_bounded cfg k : backoff_delay cfg k ≤ backoff_max cfg.
Proof. unfold backoff_delay. apply Nat.le_min_r. Qed.

Lemma backoff_delay_mono cfg k k' :
  1 ≤ backoff_multiplier cfg → k ≤ k' →
  backoff_delay cfg k ≤ backoff_delay cfg k'.
Proof.
  intros Hm Hk. unfold backoff_delay.
  apply Nat.min_le_compat_r, Nat.mul_le_mono_l, Nat.pow_le_mono_r; lia.
Qed.

Lemma sorted_fmap_seq (g : nat → nat) (i n : nat) :
  (∀ a b, a ≤ b → g a ≤ g b) → StronglySorted le (g <$> seq i n).
Proof.
  intros Hmono. revert i.
  induction n as [|n IH]; intros i; cbn; constructor; [apply IH|].
  apply Forall_fmap, Forall_seq. intros j Hj. cbn. apply Hmono. lia.
Qed.

(** Over a stretch of failing cycles the delays are the backoff delays of
    the successive failure counts, and no batch is emitted. *)
Lemma run_failures cfg st ticks :
  Forall (fetch_fails cfg) ticks →
  delay <$> (run cfg st ticks).2 =
    backoff_delay cfg <$> seq (failures st) (length ticks) ∧
  batches (run cfg st ticks).2 = [].
Proof.
  intros Hfail. revert st.
  induction Hfail as [|t ticks Ht _ IH]; intros st; [done|].
  cbn [run fst snd length seq fmap list_fmap].
  destruct (poll_cycle_failure cfg st t Ht) as (e & _ & _ & Hf & _ & _ & Ho).
  destruct (IH (poll_cycle cfg st t).1) as [Hd Hb].
  rewrite Hf in Hd. rewrite Ho. unfold batches in *. cbn.
  split; [by f_equal|done].
Qed.


(** *** What reaches the files *)

Lemma run_extends_files cfg st ticks f :
  file_extends f (persister st) (persister (run cfg st ticks).1)
    (accepted f ticks (run cfg st ticks).2).
Proof.
  revert st. induction ticks as [|t ticks IH]; intros st.
  - apply file_extends_refl.
  - cbn [run fst snd accepted]. specialize (IH (poll_cycle cfg st t).1).
    destruct (fetch_fails_or_succeeds cfg t) as [Hbad|Hok].
    + destruct (poll_cycle_failure cfg st t Hbad)
        as (e & _ & Hp & _ & _ & _ & Ho).
      rewrite Hp in IH. rewrite Ho. cbn [emitted].
      apply (file_extends_trans _ _ _ _ _ _
               (log_failure_extends f (clock st) e (io t).2 (persister st))
               IH).
    + destruct (poll_cycle_success cfg st t Hok)
        as (batch & _ & _ & _ & Hp & _ & _ & Ho).
      rewrite Hp in IH. rewrite Ho. cbn [emitted].
      pose proof (append_extends f batch (io t) (persister st)) as Happ.
      pose proof (file_extends_trans _ _ _ _ _ _ Happ IH) as Hall.
      by destruct (outcome_for f (io t)).
Qed.

Lemma run_keeps_files cfg st ticks f :
  file_kept f (persister st) (persister (run cfg st ticks).1).
Proof. eapply file_extends_kept, run_extends_files. Qed.

Lemma sorted_all_equal (z : Z) (l : list Z) :
  Forall (λ x, x = z) l → StronglySorted Z.le l.
Proof.
  induction 1 as [|x l -> Hall IH]; constructor; [done|].
  eapply Forall_impl; [exact Hall|]. intros y ->. reflexivity.
Qed.

(** The lines one cycle appends to a file all carry the cycle's time. *)
Lemma cycle_stamps cfg st t f :
  ∃ stamps,
    file_stamps f (persister (poll_cycle cfg st t).1) =
      file_stamps f (persister st) ++ stamps ∧
    Forall (λ z, z = clock st) stamps.
Proof.
  destruct (fetch_fails_or_succeeds cfg t) as [Hbad|Hok].
  - destruct (poll_cycle_failure cfg st t Hbad) as (e & _ & Hp & _).
    rewrite Hp. destruct f; cbn.
    + exists []. by rewrite app_nil_r.
    + unfold write_failure. destruct (io t).2.
      * exists [clock st]. rewrite fmap_app. split; [done|].
        by repeat constructor.
      * exists []. by rewrite app_nil_r.
  - destruct (poll_cycle_success cfg st t Hok)
      as (batch & _ & Hnow & _ & Hp & _).
    rewrite Hp.
    assert (Hstamps : Forall (λ z, z = clock st) (timestamp <$> batch)).
    { by apply Forall_fmap. }
    destruct f; cbn.
    + unfold write_csv. destruct (io t).1.
      * exists (timestamp <$> batch). split; [|done].
        unfold csv_readings. rewrite omap_app, fmap_app. f_equal.
        f_equal. apply csv_readings_rows.
      * exists []. by rewrite app_nil_r.
    + unfold write_log. destruct (io t).2.
      * exists (timestamp <$> batch). split; [|done].
        rewrite fmap_app. f_equal. by rewrite <- list_fmap_compose.
      * exists []. by rewrite app_nil_r.
Qed.

(** The lines a run appends to a file are stamped no earlier than the
    run's first tick, and the stamps follow the order of writing. *)
Lemma run_stamps cfg st ticks f :
  ∃ stamps,
    file_stamps f (persister (run cfg st ticks).1) =
      file_stamps f (persister st) ++ stamps ∧
    Forall (λ z, (clock st ≤ z)%Z) stamps ∧
    StronglySorted Z.le stamps.
Proof.
  revert st. induction ticks as [|t ticks IH]; intros st.
  - exists []. cbn. rewrite app_nil_r. repeat split; constructor.
  - cbn [run fst].
    destruct (cycle_stamps cfg st t f) as (now & Hnow & Hsame).
    destruct (IH (poll_cycle cfg st t).1) as (later & Hlater & Hlate & Hsorted).
    pose proof (poll_cycle_clock cfg st t) as Hclk.
    assert (Hlate' : Forall (λ z, (clock st ≤ z)%Z) later).
    { eapply Forall_impl; [exact Hlate|]. cbn. intros z Hz. lia. }
    exists (now ++ later). split; [|split].
    + by rewrite Hlater, Hnow, app_assoc.
    + apply Forall_app. split; [|done].
      eapply Forall_impl; [exact Hsame|]. cbn. intros z ->. lia.
    + apply StronglySorted_app. split; [|split].
      * intros x y Hx Hy. rewrite Forall_forall in Hsame, Hlate'.
        rewrite (Hsame x Hx). by apply Hlate'.
      * by apply (sorted_all_equal (clock st)).
      * done.
Qed.

Lemma appended_stamps_app f (p p' : Persister V) stamps :
  file_stamps f p' = file_stamps f p ++ stamps →
  appended_stamps f p p' = stamps.
Proof.
  intros Heq. unfold appended_stamps. rewrite Heq. apply drop_app_length.
Qed.


Lemma accepted_all_written cfg st ticks f :
  Forall (λ t, outcome_for f (io t) = Written) ticks →
  accepted f ticks (run cfg st ticks).2 = concat (batches (run cfg st ticks).2).
Proof.
  intros Hio. revert st.
  induction Hio as [|t ticks Ht _ IH]; intros st; [done|].
  cbn [run fst snd accepted]. rewrite Ht, IH. unfold batches.
  cbn [omap list_omap].
  by destruct (emitted (poll_cycle cfg st t).2).
Qed.


End PipelineProofs.

(* ===================================================================== *)
(** ** Theorems about the deployment descriptor *)
(* ===================================================================== *)

Local Open Scope string_scope.

(** C8: the descriptor defines exactly one managed application; its script
    is ['app.py'] and the executable named by its interpreter path is
    [python]. *)
Theorem single_app_runs_app_py_under_python :
  ∃ a : App,
    apps module_exports = [a] ∧
    script a = "app.py" ∧
    interpreter a = "~/miniconda3/envs/moxa-api/bin/python" ∧
    basename (interpreter a) = "python".
Proof.
  eexists. split; [reflexivity|]. cbn. repeat split; reflexivity.
Qed.

(** C9: every application of the descriptor has [watch] set to [false], and
    hence no sequence of file changes makes the process manager restart
    it. *)
Theorem watch_disabled_no_reload_on_file_change :
  Forall (λ a : App,
            watch a = false ∧
            ∀ changed : list string, restarts_after a changed = 0)
         (apps module_exports).
Proof.
  repeat constructor.
  intros changed. unfold restarts_after.
  induction changed as [|f fs IH] using rev_ind; [reflexivity|].
  rewrite foldl_app. cbn [foldl]. rewrite IH. reflexivity.
Qed.

(** The flag is off for the value ["0"], for the empty value and for a
    descriptor that does not set the variable; it is on for any other
    text. *)
Lemma stdout_unbuffered_cases :
  stdout_unbuffered {[ "PYTHONUNBUFFERED" := "0" ]} = false ∧
  stdout_unbuffered {[ "PYTHONUNBUFFERED" := "" ]} = false ∧
  stdout_unbuffered ∅ = false ∧
  stdout_unbuffered {[ "PYTHONUNBUFFERED" := "-3" ]} = true ∧
  stdout_unbuffered {[ "PYTHONUNBUFFERED" := "yes" ]} = true.
Proof. repeat split; reflexivity. Qed.

(** C10: the descriptor has one application, whose environment binds
    [PYTHONUNBUFFERED] to the string ["1"], which makes the script's
    standard output unbuffered. *)
Theorem pythonunbuffered_is_1 :
  ∃ a : App,
    apps module_exports = [a] ∧
    env a !! "PYTHONUNBUFFERED" = Some "1" ∧
    stdout_unbuffered (env a) = true.
Proof. eexists. split; [reflexivity|]. split; reflexivity. Qed.

(** *** The README's commands against the descriptor *)

Lemma append_snoc_assoc (a : string) (c : ascii) (s : string) :
  (a ++ String c EmptyString) ++ s = a ++ String c s.
Proof.
  induction a as [|x a IH]; [done|].
  change (String x ((a ++ String c EmptyString) ++ s) =
          String x (a ++ String c s)).
  by f_equal.
Qed.

Lemma append_empty_r (a : string) : a ++ EmptyString = a.
Proof.
  induction a as [|x a IH]; [done|].
  change (String x (a ++ EmptyString) = String x a). by f_equal.
Qed.

Lemma split_from_nonempty sep acc s : split_from sep acc s ≠ [].
Proof.
  revert acc. induction s as [|c s IH]; intros acc; cbn; [done|].
  destruct (Ascii.eqb c sep); [done|apply IH].
Qed.

(** Splitting loses nothing: joining the pieces gives the text back. *)
Lemma join_split_from sep acc s :
  join sep (split_from sep acc s) = acc ++ s.
Proof.
  revert acc. induction s as [|c s IH]; intros acc.
  - cbn [split_from join]. by rewrite append_empty_r.
  - cbn [split_from]. destruct (Ascii.eqb c sep) eqn:Hsep.
    + apply Ascii.eqb_eq in Hsep as ->. cbn [join].
      pose proof (split_from_nonempty sep EmptyString s) as Hne.
      specialize (IH EmptyString).
      destruct (split_from sep EmptyString s) as [|y ys]; [done|].
      by rewrite IH.
    + rewrite IH. apply append_snoc_assoc.
Qed.

Lemma join_split_on sep s : join sep (split_on sep s) = s.
Proof. apply join_split_from. Qed.

(** The last component of a path is its [basename]. *)
Lemma last_split_from_basename acc s :
  last (split_from "/" acc s) = Some (basename_from acc s).
Proof.
  revert acc. induction s as [|c s IH]; intros acc; [done|].
  cbn [split_from basename_from]. destruct (Ascii.eqb c "/"); [|apply IH].
  rewrite last_cons, IH. done.
Qed.

Lemma last_split_on_basename s : last (split_on "/" s) = Some (basename s).
Proof. apply last_split_from_basename. Qed.

(** X1: the README's daemonize command is [pm2 start] applied to the
    script of the descriptor's application, with the descriptor's process
    name after [--name] and the descriptor's interpreter path after
    [--interpreter]. *)
Theorem readme_pm2_start_matches_descriptor :
  ∃ a : App,
    apps module_exports = [a] ∧
    split_on " " readme_pm2_start =
      ["pm2"; "start"; script a;
       "--name"; name a;
       "--interpreter"; interpreter a].
Proof. eexists. split; reflexivity. Qed.

(** X2: the descriptor's interpreter is [bin/python] inside the conda
    environment that the README's install step creates, and that
    environment bears the name of the managed process. *)
Theorem interpreter_is_python_of_readme_conda_env :
  ∃ (a : App) (env_name : string),
    apps module_exports = [a] ∧
    split_on " " readme_conda_create = ["conda"; "create"; "-n"; env_name] ∧
    split_on "/" (interpreter a) =
      ["~"; "miniconda3"; "envs"; env_name; "bin"; "python"] ∧
    name a = env_name.
Proof. do 2 eexists. repeat split; reflexivity. Qed.

(* ===================================================================== *)
(** ** The theorems at the sample deployment *)
(* ===================================================================== *)



(** One good answer: a batch with the two configured channels, in order. *)
Lemma successful_cycle_one_reading_per_channel_witness :
  fetch_succeeds sample_config tick_ok ∧
  ∃ batch,
    emitted (poll_cycle sample_config
               (start sample_config fresh_disk 0) tick_ok).2 = Some batch ∧
    channel_id <$> batch = ["ch0"; "ch1"] ∧
    length batch = 2%nat.
Proof.
  split; [reflexivity|].
  exact (successful_cycle_one_reading_per_channel
           sample_config (start sample_config fresh_disk 0) tick_ok eq_refl).
Defined.








